(** * learning-rust, [src/main.ts]

    A shallow embedding of the TypeScript snippet

<<
    const list = [1, 2, 3].map(x => x + 1);
    console.log(list);

    type Item = string | number;
    const mutateItems = (items: Array<Item>): void => {
      items.push("Hello world");
    }

    const numbers: Array<number> = [1, 2, 3];
    mutateItems(numbers);
    console.log(numbers);
>>

    Numbers are IEEE-754 binary64 values (the Standard Library's
    [SpecFloat]), arrays live in a store and are passed by reference, and
    the statements of the program are actions of a state monad over that
    store and the console. *)

From Stdlib Require Import ZArith Lia Floats.SpecFloat.
From stdpp Require Import base option list gmap strings pretty.

Local Open Scope Z_scope.

(* ===================================================================== *)
(** ** Numbers *)
(* ===================================================================== *)

Module Number.

(** A JavaScript [number] is a binary64 float: 53 bits of precision,
    exponent of the infinities 1024. *)
Definition prec : Z := 53.
Definition emax : Z := 1024.

Definition number : Type := spec_float.

(** The value of an integer literal: the float nearest to it. *)
Definition of_Z (z : Z) : number := binary_normalize prec emax z 0 false.

(** The operator [+] on two numbers. *)
Definition add (x y : number) : number := SFadd prec emax x y.

(** The floats that are numbers: the canonical ones. *)
Definition valid (x : number) : bool := valid_binary prec emax x.

(** [m * 2^e], when it is an integer. *)
Definition magnitude (m : positive) (e : Z) : option Z :=
  if 0 <=? e then Some (Z.pos m * 2 ^ e)
  else if Z.pos m mod 2 ^ (- e) =? 0 then Some (Z.pos m / 2 ^ (- e))
  else None.

(** The integer a number denotes, when it denotes one. *)
Definition to_Z (x : number) : option Z :=
  match x with
  | S754_zero _ => Some 0
  | S754_finite s m e => cond_Zopp s <$> magnitude m e
  | S754_infinity _ | S754_nan => None
  end.

(** The integers on which [+ 1] is exact: [-2^53 <= z < 2^53]. *)
Definition safe (z : Z) : Prop := - 2 ^ 53 <= z < 2 ^ 53.

(** The integers of at most 53 bits. *)
Definition small (z : Z) : Prop := - 2 ^ 53 < z < 2 ^ 53.

(** [p * 2^k], by [k] doublings. *)
Definition shl (k : nat) (p : positive) : positive := Nat.iter k xO p.

(** The 53-bit mantissa and the exponent of the float of [w < 2^53]. *)
Definition mantissa (w : positive) : positive :=
  shl (Z.to_nat (53 - Z.pos (digits2_pos w))) w.

Definition exponent (w : positive) : Z := Z.pos (digits2_pos w) - 53.

End Number.

Import Number.

(* ===================================================================== *)
(** ** Values, store and console *)
(* ===================================================================== *)

(** [type Item = string | number]. *)
Inductive Item : Type :=
  | Num (n : number)
  | Str (s : string).

(** The integer literal [z] as an element. *)
Definition int (z : Z) : Item := Num (of_Z z).

(** The integer an element denotes: none for a string. *)
Definition int_of_Item (x : Item) : option Z :=
  match x with
  | Num n => to_Z n
  | Str _ => None
  end.

(** [x] is a number and denotes the integer [z]. *)
Definition is_int (x : Item) (z : Z) : Prop :=
  match x with
  | Num n => valid n = true ∧ to_Z n = Some z
  | Str _ => False
  end.

(** The static type [Array<number>]: every element is a number. *)
Definition is_number (x : Item) : bool :=
  match x with
  | Num _ => true
  | Str _ => false
  end.

Definition is_number_array (xs : list Item) : bool := forallb is_number xs.

(** An array value is a reference into the store; two references to the
    same location are the same array. *)
Definition loc : Type := positive.

(** The store of arrays, the input that has not been read, what the
    console has received so far (one entry per [console.log] call, the
    contents of the logged array at the time of the call), and the arrays
    that are not extensible: frozen, sealed, or passed to
    [Object.preventExtensions]. *)
Record state : Type := mkState {
  heap : gmap loc (list Item);
  stdin : list string;
  stdout : list (list Item);
  inextensible : gset loc
}.

(** A state all of whose arrays are extensible. *)
Definition State (h : gmap loc (list Item)) (i : list string)
    (o : list (list Item)) : state :=
  mkState h i o ∅.

(** The exceptions the operations of the program can throw. *)
Inductive error : Type :=
  | TypeError
  | RangeError.

(** A statement either completes with a value and a new state, or throws
    and leaves the state it had reached, or faults on a reference that is
    not in the store. *)
Inductive outcome (A : Type) : Type :=
  | Normal (a : A) (s : state)
  | Throw (e : error) (s : state)
  | Fault (l : loc).

Arguments Normal {A} a s.
Arguments Throw {A} e s.
Arguments Fault {A} l.

Definition M (A : Type) : Type := state → outcome A.

#[global] Instance M_ret : MRet M := λ A a s, Normal a s.

#[global] Instance M_bind : MBind M := λ A B f m s,
  match m s with
  | Normal a s' => f a s'
  | Throw e s' => Throw e s'
  | Fault l => Fault l
  end.

(** The state an outcome ends in, and the console of that state. *)
Definition final_state {A} (o : outcome A) : option state :=
  match o with
  | Normal _ s => Some s
  | Throw _ s => Some s
  | Fault _ => None
  end.

Definition output {A} (o : outcome A) : option (list (list Item)) :=
  stdout <$> final_state o.

(** The exit status of the process: 0 unless the run was aborted. *)
Definition exit_status {A} (o : outcome A) : Z :=
  match o with
  | Normal _ _ => 0
  | Throw _ _ => 1
  | Fault _ => 1
  end.

(** *** Primitive operations *)

Definition throw {A} (e : error) : M A := λ s, Throw e s.

(** An array literal [[x1, ..., xn]] creates a new array, which is
    extensible. *)
Definition alloc (xs : list Item) : M loc := λ s,
  let l := fresh (dom (heap s)) in
  Normal l
    (mkState (<[l := xs]> (heap s)) (stdin s) (stdout s)
       (inextensible s ∖ {[l]})).

Definition read (l : loc) : M (list Item) := λ s,
  match heap s !! l with
  | Some xs => Normal xs s
  | None => Fault l
  end.

Definition write (l : loc) (xs : list Item) : M unit := λ s,
  match heap s !! l with
  | Some _ =>
      Normal tt
        (mkState (<[l := xs]> (heap s)) (stdin s) (stdout s) (inextensible s))
  | None => Fault l
  end.

Definition is_extensible (l : loc) : M bool := λ s,
  Normal (bool_decide (l ∉ inextensible s)) s.

(** The greatest length an array can have, [2^32 - 1]. *)
Definition max_length : Z := 2 ^ 32 - 1.

(** [a.map(f)]: a new array holding [f] of each element of [a]. *)
Definition Array_map (f : Item → Item) (a : loc) : M loc :=
  xs ← read a; alloc (f <$> xs).

(** [a.push(v)]: appends [v] to the array [a] itself and returns the new
    length.  Setting the new element throws a [TypeError] when [a] is not
    extensible; on an extensible array that already has the greatest
    length, setting the length throws a [RangeError].  In both cases the
    elements and the length of [a] are as they were. *)
Definition Array_push (a : loc) (v : Item) : M number :=
  xs ← read a;
  extensible ← is_extensible a;
  if negb extensible then throw TypeError
  else if max_length <=? Z.of_nat (length xs) then throw RangeError
  else (write a (xs ++ [v]);;
        mret (of_Z (Z.of_nat (length (xs ++ [v]))))).

(** [a.push(v)] goes through on an extensible array below the greatest
    length. *)
Definition can_push (s : state) (a : loc) (xs : list Item) : Prop :=
  (a ∉ inextensible s) ∧ (Z.of_nat (length xs) < max_length).

Definition emit (xs : list Item) : M unit := λ s,
  Normal tt
    (mkState (heap s) (stdin s) (stdout s ++ [xs]) (inextensible s)).

(** [console.log(a)]: the console receives the current contents of [a]. *)
Definition console_log (a : loc) : M unit :=
  xs ← read a; emit xs.

(* ===================================================================== *)
(** ** The program *)
(* ===================================================================== *)

(** [x => x + 1].  On a number [+] is the binary64 addition; when an
    operand is a string, [+] concatenates, and the string of [1] is "1". *)
Definition plus_one (x : Item) : Item :=
  match x with
  | Num n => Num (add n (of_Z 1))
  | Str s => Str (s +:+ "1")
  end.

(** [(items) => { items.push("Hello world"); }]: the result of [push] is
    dropped and nothing is returned. *)
Definition mutateItems (items : loc) : M unit :=
  Array_push items (Str "Hello world");;
  mret tt.

(** [[1, 2, 3].map(x => x + 1)], the initializer of [list]. *)
Definition list_init : M loc :=
  lit ← alloc [int 1; int 2; int 3];
  Array_map plus_one lit.

(** [[1, 2, 3]], the initializer of [numbers]. *)
Definition numbers_init : M loc := alloc [int 1; int 2; int 3].

(** The top-level statements, in order. *)
Definition main : M unit :=
  list' ← list_init;
  console_log list';;
  numbers ← numbers_init;
  mutateItems numbers;;
  console_log numbers.

(** What a run starts from: the arrays that already exist, the input
    that is waiting, and which of the arrays are not extensible. *)
Record world : Type := World {
  w_heap : gmap loc (list Item);
  w_stdin : list string;
  w_inextensible : gset loc
}.

Definition boot (w : world) : state :=
  mkState (w_heap w) (w_stdin w) [] (w_inextensible w).

Definition run (w : world) : outcome unit := main (boot w).

(* ===================================================================== *)
(** ** Textual representation *)
(* ===================================================================== *)

(** The double quote character, code 34. *)
Definition dquote : string := String (Ascii.ascii_of_nat 34) EmptyString.

(** Modelled from the spec: the formatter behind [console.log] belongs to
    the host and is not in the sources.  Section 6 of the spec writes an
    integer in decimal and a string between double quotes. *)
Definition repr_Item (x : Item) : option string :=
  match x with
  | Num n => pretty <$> to_Z n
  | Str s => Some (dquote +:+ s +:+ dquote)
  end.

Fixpoint join (sep : string) (ss : list string) : string :=
  match ss with
  | [] => ""
  | [s] => s
  | s :: ss' => s +:+ sep +:+ join sep ss'
  end.

(** Modelled from the spec: the textual representation of a sequence, which
    section 6 of the spec writes between square brackets with the elements
    separated by a comma and a space. *)
Definition repr (xs : list Item) : option string :=
  ss ← mapM repr_Item xs; Some ("[" +:+ join ", " ss +:+ "]").

(** The lines on standard output at the end of a run. *)
Definition printed {A} (o : outcome A) : option (list string) :=
  out ← output o; mapM repr out.

(** The two lines of section 6 of the spec. *)
Definition line_B : string := "[2, 3, 4]".
Definition line_C : string :=
  "[1, 2, 3, " +:+ dquote +:+ "Hello world" +:+ dquote +:+ "]".

(* ===================================================================== *)
(** ** An array of the greatest length *)
(* ===================================================================== *)


(* ===================================================================== *)
(** ** Repeated calls *)
(* ===================================================================== *)


(* ===================================================================== *)
(** ** The definitions at work *)
(* ===================================================================== *)

Example of_Z_one : of_Z 1 = S754_finite false 4503599627370496 (- 52).
Proof. reflexivity. Qed.

Example add_one_two : add (of_Z 2) (of_Z 1) = of_Z 3.
Proof. vm_compute. reflexivity. Qed.

Example add_minus_one : add (of_Z (- 1)) (of_Z 1) = S754_zero false.
Proof. vm_compute. reflexivity. Qed.

(** [9007199254740992 + 1] is [9007199254740992]. *)
Example add_one_2p53 : add (of_Z (2 ^ 53)) (of_Z 1) = of_Z (2 ^ 53).
Proof. vm_compute. reflexivity. Qed.

(** The literal [9007199254740993] is not a float: it reads as
    [9007199254740992]. *)
Example of_Z_2p53_plus_one : to_Z (of_Z (2 ^ 53 + 1)) = Some (2 ^ 53).
Proof. vm_compute. reflexivity. Qed.

Example plus_one_number : plus_one (int 41) = int 42.
Proof. vm_compute. reflexivity. Qed.

Example plus_one_string : plus_one (Str "a") = Str "a1".
Proof. reflexivity. Qed.

Example repr_mixed :
  repr [int (- 5); Str "x"] = Some ("[-5, " +:+ dquote +:+ "x" +:+ dquote +:+ "]").
Proof. vm_compute. reflexivity. Qed.

Example repr_empty : repr [] = Some "[]".
Proof. reflexivity. Qed.

(** [Object.freeze(a); a.push(4)] throws and leaves [a] alone. *)
Example push_frozen :
  Array_push 1%positive (int 4)
    (mkState {[1%positive := [int 1]]} [] [] {[1%positive]})
  = Throw TypeError (mkState {[1%positive := [int 1]]} [] [] {[1%positive]}).
Proof. vm_compute. reflexivity. Qed.

Example push_extensible :
  final_state (Array_push 1%positive (int 4) (State {[1%positive := [int 1]]} [] []))
  = Some (State {[1%positive := [int 1; int 4]]} [] []).
Proof. vm_compute. reflexivity. Qed.

Example run_empty_world :
  printed (run (World ∅ [] ∅)) = Some [line_B; line_C].
Proof. vm_compute. reflexivity. Qed.

Example run_busy_world :
  output (run (World {[1%positive := [Str "x"]]} ["typed"; "ahead"]
                 {[1%positive]}))
  = Some [[int 2; int 3; int 4]; [int 1; int 2; int 3; Str "Hello world"]].
Proof. vm_compute. reflexivity. Qed.

(* ===================================================================== *)
(** ** Binary64 addition of one is exact on 53-bit integers *)
(* ===================================================================== *)

Section Exactness.

Lemma iter_pos_nat {A} (f : A → A) p x :
  SpecFloat.iter_pos f p x = Nat.iter (Pos.to_nat p) f x.
Proof.
  revert x.
  induction p as [p IH|p IH|]; intros x; cbn [SpecFloat.iter_pos].
  - rewrite !IH, Pos2Nat.inj_xI.
    replace (S (2 * Pos.to_nat p))
      with (Pos.to_nat p + (Pos.to_nat p + 1))%nat by lia.
    rewrite !Nat.iter_add. reflexivity.
  - rewrite !IH, Pos2Nat.inj_xO.
    replace (2 * Pos.to_nat p)%nat
      with (Pos.to_nat p + Pos.to_nat p)%nat by lia.
    rewrite Nat.iter_add. reflexivity.
  - reflexivity.
Qed.

Lemma Pos_iter_shl p k : Pos.iter xO p k = shl (Pos.to_nat k) p.
Proof. rewrite Pos2Nat.inj_iter. reflexivity. Qed.

Lemma shl_add j k p : shl j (shl k p) = shl (j + k) p.
Proof. unfold shl. rewrite Nat.iter_add. reflexivity. Qed.

Lemma digits_shl k p :
  Z.pos (digits2_pos (shl k p)) = Z.pos (digits2_pos p) + Z.of_nat k.
Proof.
  induction k as [|k IH]; [simpl; lia|].
  change (shl (S k) p) with (xO (shl k p)). simpl digits2_pos. lia.
Qed.

Lemma Zpos_shl k p : Z.pos (shl k p) = Z.pos p * 2 ^ Z.of_nat k.
Proof.
  induction k as [|k IH]; [simpl; lia|].
  change (shl (S k) p) with (xO (shl k p)).
  rewrite Pos2Z.inj_xO, IH, Nat2Z.inj_succ, Z.pow_succ_r by lia. lia.
Qed.

(** Shifting right what was shifted left loses nothing. *)
Lemma shr_shl q j p :
  Nat.iter q shr_1 (Build_shr_record (Z.pos (shl (q + j) p)) false false)
  = Build_shr_record (Z.pos (shl j p)) false false.
Proof.
  induction q as [|q IH]; [reflexivity|].
  rewrite Nat.iter_succ_r. exact IH.
Qed.

Lemma digits_size p : digits2_pos p = Pos.size p.
Proof. induction p; simpl; congruence. Qed.

Lemma digits_le_prec p : Z.pos p < 2 ^ 53 → Z.pos (digits2_pos p) <= 53.
Proof.
  intros Hp. rewrite digits_size.
  pose proof (Pos.size_le p) as Hle.
  apply Pos2Z.pos_le_pos in Hle.
  rewrite Pos2Z.inj_pow, (Pos2Z.inj_xO p) in Hle.
  destruct (Z_le_gt_dec (Z.pos (Pos.size p)) 53) as [|Hgt]; [assumption|].
  assert (2 ^ 54 <= 2 ^ Z.pos (Pos.size p))
    by (apply Z.pow_le_mono_r; lia).
  lia.
Qed.

Lemma fexp_small d : 1 <= d <= 54 → fexp prec emax d = d - 53.
Proof. intros Hd. unfold fexp, emin, prec, emax. lia. Qed.

(** Rounding a mantissa that one exact shift makes canonical. *)
Lemma binary_round_aux_exact s m e m' e' :
  shr_fexp prec emax (Z.pos m) e loc_Exact
    = (Build_shr_record (Z.pos m') false false, e') →
  fexp prec emax (Z.pos (digits2_pos m') + e') = e' →
  e' <= emax - prec →
  binary_round_aux prec emax s (Z.pos m) e loc_Exact = S754_finite s m' e'.
Proof.
  intros Hshr Hcanon Hle. unfold binary_round_aux. rewrite Hshr. simpl.
  unfold shr_fexp. simpl Zdigits2. rewrite Hcanon, Z.sub_diag. simpl.
  destruct (Z.leb_spec e' (emax - prec)); [reflexivity|lia].
Qed.

(** [w * 2^k] at exponent [-k] is the integer [w]; when [w] has at most
    53 bits it is a float, whatever [k]. *)
Lemma binary_round_exact s w k :
  Z.pos (digits2_pos w) <= 53 →
  binary_round prec emax s (shl k w) (- Z.of_nat k)
  = S754_finite s (mantissa w) (exponent w).
Proof.
  intros Hd. unfold binary_round, mantissa, exponent.
  set (d := Z.pos (digits2_pos w)) in *.
  assert (Hfexp :
    fexp prec emax (Z.pos (digits2_pos (shl k w)) + - Z.of_nat k) = d - 53).
  { rewrite digits_shl. fold d.
    replace (d + Z.of_nat k + - Z.of_nat k) with d by lia.
    apply fexp_small. subst d; lia. }
  assert (Hcanon :
    fexp prec emax
      (Z.pos (digits2_pos (shl (Z.to_nat (53 - d)) w)) + (d - 53)) = d - 53).
  { rewrite digits_shl. fold d.
    replace (d + Z.of_nat (Z.to_nat (53 - d)) + (d - 53)) with d by lia.
    apply fexp_small. subst d; lia. }
  rewrite Hfexp. unfold shl_align.
  destruct (d - 53 - - Z.of_nat k) as [|n|n] eqn:Hn.
  - apply binary_round_aux_exact;
      [|assumption|unfold emax, prec; subst d; lia].
    unfold shr_fexp. simpl Zdigits2. rewrite Hfexp.
    replace (d - 53 - - Z.of_nat k) with 0 by lia. simpl.
    do 2 f_equal; [|lia]. do 2 f_equal. lia.
  - apply binary_round_aux_exact;
      [|assumption|unfold emax, prec; subst d; lia].
    unfold shr_fexp. simpl Zdigits2. rewrite Hfexp, Hn. simpl.
    rewrite iter_pos_nat.
    replace k with (Pos.to_nat n + Z.to_nat (53 - d))%nat at 1 by lia.
    rewrite shr_shl. f_equal. lia.
  - rewrite Pos_iter_shl, shl_add.
    apply binary_round_aux_exact;
      [|assumption|unfold emax, prec; subst d; lia].
    unfold shr_fexp. simpl Zdigits2.
    replace (Pos.to_nat n + k)%nat with (Z.to_nat (53 - d)) by lia.
    rewrite Hcanon, Z.sub_diag. reflexivity.
Qed.

Lemma of_Z_pos w :
  Z.pos w < 2 ^ 53 →
  of_Z (Z.pos w) = S754_finite false (mantissa w) (exponent w).
Proof.
  intros Hw. apply (binary_round_exact false w 0), digits_le_prec, Hw.
Qed.

Lemma of_Z_neg w :
  Z.pos w < 2 ^ 53 →
  of_Z (Z.neg w) = S754_finite true (mantissa w) (exponent w).
Proof.
  intros Hw. apply (binary_round_exact true w 0), digits_le_prec, Hw.
Qed.

Lemma normalize_scaled z :
  small z → binary_normalize prec emax (z * 2 ^ 52) (- 52) false = of_Z z.
Proof.
  unfold small. intros Hz. destruct z as [|w|w]; [reflexivity| |].
  - rewrite of_Z_pos by lia.
    replace (Z.pos w * 2 ^ 52) with (Z.pos (shl 52 w))
      by (rewrite Zpos_shl; reflexivity).
    apply (binary_round_exact false w 52), digits_le_prec. lia.
  - rewrite of_Z_neg by lia.
    replace (Z.neg w * 2 ^ 52) with (Z.neg (shl 52 w))
      by (rewrite <- !Pos2Z.opp_pos, Zpos_shl, Z.mul_opp_l; reflexivity).
    apply (binary_round_exact true w 52), digits_le_prec. lia.
Qed.

(** Aligning the float of [w] with the float of [1]. *)
Lemma align_mantissa w :
  Z.pos w < 2 ^ 53 →
  fst (shl_align (mantissa w) (exponent w) (Z.min (exponent w) (- 52)))
  = shl 52 w.
Proof.
  intros Hw. apply digits_le_prec in Hw.
  unfold mantissa, exponent, shl_align.
  set (d := Z.pos (digits2_pos w)) in *.
  assert (1 <= d) by (subst d; lia).
  rewrite Z.min_r by lia.
  destruct (- 52 - (d - 53)) as [|n|n] eqn:Hn; cbn [fst]; [|lia|].
  - f_equal. lia.
  - rewrite Pos_iter_shl, shl_add. f_equal. lia.
Qed.

Lemma add_one_finite s w :
  Z.pos w < 2 ^ 53 →
  add (S754_finite s (mantissa w) (exponent w)) (of_Z 1)
  = binary_normalize prec emax ((cond_Zopp s (Z.pos w) + 1) * 2 ^ 52)
      (- 52) false.
Proof.
  intros Hw.
  change (of_Z 1) with (S754_finite false (shl 52 1) (- 52)).
  unfold add, SFadd. rewrite align_mantissa by assumption.
  assert (Hmin : Z.min (exponent w) (- 52) = - 52)
    by (unfold exponent; lia).
  rewrite Hmin.
  change (fst (shl_align (shl 52 1) (- 52) (- 52))) with (shl 52 1).
  f_equal. rewrite Z.mul_add_distr_r.
  destruct s; cbn [cond_Zopp]; rewrite !Zpos_shl;
    change (Z.of_nat 52) with 52; lia.
Qed.

Lemma add_one_small z :
  small z → small (z + 1) → add (of_Z z) (of_Z 1) = of_Z (z + 1).
Proof.
  intros Hz Hz1. rewrite <- (normalize_scaled (z + 1)) by assumption.
  unfold small in Hz. destruct z as [|w|w]; [reflexivity| |].
  - rewrite of_Z_pos by lia. apply (add_one_finite false). lia.
  - rewrite of_Z_neg by lia. apply (add_one_finite true). lia.
Qed.

(** On every integer from [-2^53] to [2^53 - 1], [+ 1] is the integer
    successor. *)
Lemma add_one_safe z : safe z → add (of_Z z) (of_Z 1) = of_Z (z + 1).
Proof.
  unfold safe. intros Hz.
  destruct (Z.eq_dec z (- 2 ^ 53)) as [->|Hlo]; [vm_compute; reflexivity|].
  destruct (Z.eq_dec z (2 ^ 53 - 1)) as [->|Hhi]; [vm_compute; reflexivity|].
  apply add_one_small; unfold small; lia.
Qed.

(** An integer of at most 53 bits, and [2^53] itself, is the value of its
    float. *)
Lemma magnitude_finite w :
  Z.pos w < 2 ^ 53 → magnitude (mantissa w) (exponent w) = Some (Z.pos w).
Proof.
  intros Hw. apply digits_le_prec in Hw.
  unfold magnitude, mantissa, exponent.
  set (d := Z.pos (digits2_pos w)) in *.
  assert (1 <= d) by (subst d; lia).
  rewrite Zpos_shl, Z2Nat.id by lia.
  destruct (Z.leb_spec 0 (d - 53)) as [Hge|Hlt].
  - replace (53 - d) with 0 by lia. replace (d - 53) with 0 by lia.
    f_equal. lia.
  - replace (- (d - 53)) with (53 - d) by lia.
    assert (0 < 2 ^ (53 - d)) by (apply Z.pow_pos_nonneg; lia).
    rewrite Z_mod_mult, Z_div_mult by lia. reflexivity.
Qed.

Lemma to_Z_of_Z z : - 2 ^ 53 <= z <= 2 ^ 53 → to_Z (of_Z z) = Some z.
Proof.
  intros Hz.
  destruct (Z.eq_dec z (- 2 ^ 53)) as [->|Hlo]; [vm_compute; reflexivity|].
  destruct (Z.eq_dec z (2 ^ 53)) as [->|Hhi]; [vm_compute; reflexivity|].
  destruct z as [|w|w]; [reflexivity| |].
  - rewrite of_Z_pos by lia. cbn [to_Z]. rewrite magnitude_finite by lia.
    reflexivity.
  - rewrite of_Z_neg by lia. cbn [to_Z]. rewrite magnitude_finite by lia.
    reflexivity.
Qed.

Lemma bounded_finite w :
  Z.pos w < 2 ^ 53 → bounded prec emax (mantissa w) (exponent w) = true.
Proof.
  intros Hw. apply digits_le_prec in Hw.
  unfold bounded, canonical_mantissa, mantissa, exponent.
  set (d := Z.pos (digits2_pos w)) in *.
  assert (1 <= d) by (subst d; lia).
  rewrite digits_shl. fold d.
  replace (d + Z.of_nat (Z.to_nat (53 - d)) + (d - 53)) with d by lia.
  rewrite fexp_small by lia. rewrite Z.eqb_refl. simpl.
  apply Z.leb_le. unfold emax, prec. lia.
Qed.

Lemma valid_of_Z z : - 2 ^ 53 <= z <= 2 ^ 53 → valid (of_Z z) = true.
Proof.
  intros Hz.
  destruct (Z.eq_dec z (- 2 ^ 53)) as [->|Hlo]; [vm_compute; reflexivity|].
  destruct (Z.eq_dec z (2 ^ 53)) as [->|Hhi]; [vm_compute; reflexivity|].
  destruct z as [|w|w]; [reflexivity| |].
  - rewrite of_Z_pos by lia. apply bounded_finite. lia.
  - rewrite of_Z_neg by lia. apply bounded_finite. lia.
Qed.

(** Conversely a canonical float whose value is an integer of at most 53
    bits is the float of that integer. *)
Lemma size_bounds m :
  2 ^ Z.pos (digits2_pos m) <= 2 * Z.pos m < 2 * 2 ^ Z.pos (digits2_pos m).
Proof.
  rewrite digits_size.
  pose proof (Pos.size_le m) as Hle. apply Pos2Z.pos_le_pos in Hle.
  pose proof (Pos.size_gt m) as Hgt. apply Pos2Z.pos_lt_pos in Hgt.
  rewrite Pos2Z.inj_pow in Hle, Hgt. rewrite (Pos2Z.inj_xO m) in Hle.
  lia.
Qed.

Lemma magnitude_shl m e v :
  magnitude m e = Some v → e < 0 →
  ∃ w, v = Z.pos w ∧ m = shl (Z.to_nat (- e)) w.
Proof.
  unfold magnitude. intros Hv He.
  destruct (Z.leb_spec 0 e); [lia|].
  destruct (Z.eqb_spec (Z.pos m mod 2 ^ (- e)) 0) as [Hmod|]; [|discriminate].
  injection Hv as <-.
  assert (0 < 2 ^ (- e)) by (apply Z.pow_pos_nonneg; lia).
  apply Z.div_exact in Hmod; [|lia].
  destruct (Z.pos m / 2 ^ (- e)) as [|w|w] eqn:Hq; [lia| |lia].
  exists w. split; [reflexivity|].
  apply Pos2Z.inj. rewrite Zpos_shl, Z2Nat.id by lia. lia.
Qed.

Lemma finite_unique m e w :
  bounded prec emax m e = true →
  Z.pos w < 2 ^ 53 →
  magnitude m e = Some (Z.pos w) →
  m = mantissa w ∧ e = exponent w.
Proof.
  unfold bounded, canonical_mantissa. intros Hb Hw Hval.
  apply andb_true_iff in Hb as [Hc _]. apply Z.eqb_eq in Hc.
  pose proof (digits_le_prec w Hw) as Hd.
  assert (Hshl : ∃ k : nat, m = shl k w ∧ e = - Z.of_nat k).
  { destruct (Z.le_gt_cases 0 e) as [Hge|Hlt].
    - unfold magnitude in Hval.
      destruct (Z.leb_spec 0 e); [|lia]. injection Hval as Hval.
      assert (He : Z.pos (digits2_pos m) = 53)
        by (unfold fexp, emin, prec, emax in Hc; lia).
      pose proof (size_bounds m) as Hm. rewrite He in Hm.
      assert (e = 0).
      { destruct (Z.eq_dec e 0) as [|Hne]; [assumption|exfalso].
        assert (2 ^ 1 <= 2 ^ e) by (apply Z.pow_le_mono_r; lia).
        nia. }
      subst e. exists 0%nat. split; [|reflexivity].
      apply Pos2Z.inj. simpl shl. lia.
    - destruct (magnitude_shl m e _ Hval Hlt) as (w' & [= <-] & ->).
      exists (Z.to_nat (- e)). split; [reflexivity|lia]. }
  destruct Hshl as (k & -> & ->).
  rewrite digits_shl in Hc.
  replace (Z.pos (digits2_pos w) + Z.of_nat k + - Z.of_nat k)
    with (Z.pos (digits2_pos w)) in Hc by lia.
  rewrite fexp_small in Hc by lia.
  unfold mantissa, exponent. split; [f_equal|]; lia.
Qed.

(** The only canonical float of value [2^53] has mantissa [2^52] and
    exponent [1]. *)
Lemma finite_unique_2p53 m e :
  bounded prec emax m e = true →
  magnitude m e = Some (2 ^ 53) →
  m = shl 52 1 ∧ e = 1.
Proof.
  unfold bounded, canonical_mantissa. intros Hb Hval.
  apply andb_true_iff in Hb as [Hc _]. apply Z.eqb_eq in Hc.
  destruct (Z.le_gt_cases 0 e) as [Hge|Hlt].
  - unfold magnitude in Hval.
    destruct (Z.leb_spec 0 e); [|lia]. injection Hval as Hval.
    assert (He : Z.pos (digits2_pos m) = 53)
      by (unfold fexp, emin, prec, emax in Hc; lia).
    pose proof (size_bounds m) as Hm. rewrite He in Hm.
    assert (e = 1).
    { destruct (Z.eq_dec e 0) as [->|Hne]; [lia|].
      destruct (Z.eq_dec e 1) as [|Hne1]; [assumption|exfalso].
      assert (2 ^ 2 <= 2 ^ e) by (apply Z.pow_le_mono_r; lia).
      nia. }
    subst e. split; [|reflexivity].
    apply Pos2Z.inj. rewrite Zpos_shl. change (Z.of_nat 52) with 52. lia.
  - exfalso.
    destruct (magnitude_shl m e _ Hval Hlt) as (w & Hw & ->).
    rewrite digits_shl in Hc.
    assert (Hdw : Z.pos (digits2_pos w) = 54).
    { pose proof (size_bounds w) as Hb. rewrite <- Hw in Hb.
      destruct (Z.lt_trichotomy (Z.pos (digits2_pos w)) 54)
        as [Hlt54|[Heq|Hgt54]]; [exfalso|assumption|exfalso].
      - assert (2 ^ Z.pos (digits2_pos w) <= 2 ^ 53)
          by (apply Z.pow_le_mono_r; lia).
        lia.
      - assert (2 ^ 55 <= 2 ^ Z.pos (digits2_pos w))
          by (apply Z.pow_le_mono_r; lia).
        lia. }
    unfold fexp, emin, prec, emax in Hc. lia.
Qed.

Lemma magnitude_pos m e v : magnitude m e = Some v → 0 < v.
Proof.
  intros Hv. destruct (Z.le_gt_cases 0 e) as [Hge|Hlt].
  - unfold magnitude in Hv. destruct (Z.leb_spec 0 e); [|lia].
    injection Hv as <-.
    assert (0 < 2 ^ e) by (apply Z.pow_pos_nonneg; lia). lia.
  - destruct (magnitude_shl m e v Hv Hlt) as (w & -> & _). lia.
Qed.

(** Every number that denotes an integer [z] with [|z| <= 2^53], apart
    from the zeros, is the float of the literal [z]. *)
Lemma number_unique x z :
  valid x = true → to_Z x = Some z → z ≠ 0 →
  - 2 ^ 53 <= z <= 2 ^ 53 → x = of_Z z.
Proof.
  intros Hx Hz Hnz Hrange.
  destruct x as [s|s| |s m e]; try discriminate.
  { injection Hz as <-. congruence. }
  cbn [to_Z] in Hz. unfold valid, valid_binary in Hx.
  destruct (magnitude m e) as [v|] eqn:Hv; [|discriminate].
  injection Hz as <-. pose proof (magnitude_pos m e v Hv) as Hpos.
  destruct v as [|w|w]; try lia.
  destruct (Z.eq_dec (Z.pos w) (2 ^ 53)) as [Hw|Hw].
  - rewrite Hw in Hv. destruct (finite_unique_2p53 m e Hx Hv) as [-> ->].
    rewrite Hw. destruct s; vm_compute; reflexivity.
  - assert (Hlt : Z.pos w < 2 ^ 53) by (destruct s; cbn in Hrange; lia).
    destruct (finite_unique m e w Hx Hlt Hv) as [-> ->].
    destruct s.
    + change (cond_Zopp true (Z.pos w)) with (Z.neg w).
      rewrite of_Z_neg by assumption. reflexivity.
    + change (cond_Zopp false (Z.pos w)) with (Z.pos w).
      rewrite of_Z_pos by assumption. reflexivity.
Qed.

(** [+ 1] on any number that denotes an integer from [-2^53] to
    [2^53 - 1] gives the number that denotes its successor. *)
Lemma add_one_denotes x z :
  valid x = true → to_Z x = Some z → safe z →
  valid (add x (of_Z 1)) = true ∧ to_Z (add x (of_Z 1)) = Some (z + 1).
Proof.
  intros Hx Hz Hs.
  assert (Hsucc : add (of_Z z) (of_Z 1) = of_Z (z + 1))
    by (apply add_one_safe, Hs).
  unfold safe in Hs.
  assert (Hgoal : valid (of_Z (z + 1)) = true
                  ∧ to_Z (of_Z (z + 1)) = Some (z + 1))
    by (split; [apply valid_of_Z|apply to_Z_of_Z]; lia).
  destruct (Z.eq_dec z 0) as [->|Hnz].
  - destruct x as [s|s| |s m e]; try discriminate.
    + destruct s; exact Hgoal.
    + exfalso. cbn [to_Z] in Hz.
      destruct (magnitude m e) as [v|] eqn:Hv; [|discriminate].
      pose proof (magnitude_pos m e v Hv). injection Hz as Hz.
      destruct s; cbn in Hz; lia.
  - rewrite (number_unique x z Hx Hz Hnz) by lia. rewrite Hsucc.
    exact Hgoal.
Qed.

End Exactness.

(* ===================================================================== *)
(** ** The statements, one step at a time *)
(* ===================================================================== *)

Section Steps.

Implicit Types (s : state) (a l : loc) (xs : list Item).

Lemma bind_Normal {A B} (m : M A) (f : A → M B) s x s' :
  m s = Normal x s' → (m ≫= f) s = f x s'.
Proof. intros Hm. unfold mbind, M_bind. rewrite Hm. reflexivity. Qed.

Lemma bind_Throw {A B} (m : M A) (f : A → M B) s e s' :
  m s = Throw e s' → (m ≫= f) s = Throw e s'.
Proof. intros Hm. unfold mbind, M_bind. rewrite Hm. reflexivity. Qed.

Lemma alloc_spec xs s :
  alloc xs s
  = Normal (fresh (dom (heap s)))
      (mkState (<[fresh (dom (heap s)) := xs]> (heap s)) (stdin s) (stdout s)
         (inextensible s ∖ {[fresh (dom (heap s))]})).
Proof. reflexivity. Qed.

(** A new array never reuses a location of the store. *)
Lemma fresh_not_live s : heap s !! fresh (dom (heap s)) = None.
Proof. apply not_elem_of_dom, is_fresh. Qed.

Lemma fresh_ne s a xs : heap s !! a = Some xs → fresh (dom (heap s)) ≠ a.
Proof. intros Ha <-. rewrite fresh_not_live in Ha. discriminate. Qed.

Lemma read_spec a xs s : heap s !! a = Some xs → read a s = Normal xs s.
Proof. intros Ha. unfold read. rewrite Ha. reflexivity. Qed.

Lemma write_spec a xs ys s :
  heap s !! a = Some xs →
  write a ys s
  = Normal tt
      (mkState (<[a := ys]> (heap s)) (stdin s) (stdout s) (inextensible s)).
Proof. intros Ha. unfold write. rewrite Ha. reflexivity. Qed.

Lemma Array_map_spec f a xs s :
  heap s !! a = Some xs → Array_map f a s = alloc (f <$> xs) s.
Proof.
  intros Ha. unfold Array_map.
  rewrite (bind_Normal _ _ _ _ _ (read_spec _ _ _ Ha)). reflexivity.
Qed.

(** The three ways [push] can go on an array of the store. *)
Lemma Array_push_spec a v xs s :
  heap s !! a = Some xs → can_push s a xs →
  Array_push a v s
  = Normal (of_Z (Z.of_nat (length (xs ++ [v]))))
      (mkState (<[a := xs ++ [v]]> (heap s)) (stdin s) (stdout s)
         (inextensible s)).
Proof.
  intros Ha [Hext Hlen]. unfold Array_push.
  rewrite (bind_Normal _ _ _ _ _ (read_spec _ _ _ Ha)).
  unfold mbind at 1, M_bind at 1, is_extensible.
  rewrite bool_decide_eq_true_2 by exact Hext. cbn [negb].
  destruct (Z.leb_spec max_length (Z.of_nat (length xs))); [lia|].
  rewrite (bind_Normal _ _ _ _ _ (write_spec _ _ (xs ++ [v]) _ Ha)).
  reflexivity.
Qed.

Lemma Array_push_TypeError a v xs s :
  heap s !! a = Some xs → a ∈ inextensible s →
  Array_push a v s = Throw TypeError s.
Proof.
  intros Ha Hin. unfold Array_push.
  rewrite (bind_Normal _ _ _ _ _ (read_spec _ _ _ Ha)).
  unfold mbind at 1, M_bind at 1, is_extensible.
  rewrite bool_decide_eq_false_2 by (intros Hnot; exact (Hnot Hin)).
  reflexivity.
Qed.

Lemma Array_push_RangeError a v xs s :
  heap s !! a = Some xs → a ∉ inextensible s →
  max_length <= Z.of_nat (length xs) →
  Array_push a v s = Throw RangeError s.
Proof.
  intros Ha Hext Hlen. unfold Array_push.
  rewrite (bind_Normal _ _ _ _ _ (read_spec _ _ _ Ha)).
  unfold mbind at 1, M_bind at 1, is_extensible.
  rewrite bool_decide_eq_true_2 by exact Hext. cbn [negb].
  destruct (Z.leb_spec max_length (Z.of_nat (length xs))); [|lia].
  reflexivity.
Qed.

(** When [push] cannot go through it throws and changes nothing. *)
Lemma Array_push_throws a v xs s :
  heap s !! a = Some xs → ¬ can_push s a xs →
  ∃ e, Array_push a v s = Throw e s.
Proof.
  intros Ha Hno. destruct (decide (a ∈ inextensible s)) as [Hin|Hext].
  - exists TypeError. eapply Array_push_TypeError; eassumption.
  - exists RangeError. eapply Array_push_RangeError; [eassumption..|].
    unfold can_push in Hno.
    destruct (Z.lt_ge_cases (Z.of_nat (length xs)) max_length); [|lia].
    exfalso. apply Hno. split; assumption.
Qed.

Lemma mutateItems_spec a xs s :
  heap s !! a = Some xs → can_push s a xs →
  mutateItems a s
  = Normal tt
      (mkState (<[a := xs ++ [Str "Hello world"]]> (heap s))
         (stdin s) (stdout s) (inextensible s)).
Proof.
  intros Ha Hpush. unfold mutateItems.
  rewrite (bind_Normal _ _ _ _ _ (Array_push_spec _ _ _ _ Ha Hpush)).
  reflexivity.
Qed.

Lemma mutateItems_throws a xs s :
  heap s !! a = Some xs → ¬ can_push s a xs →
  ∃ e, mutateItems a s = Throw e s.
Proof.
  intros Ha Hno.
  destruct (Array_push_throws a (Str "Hello world") xs s Ha Hno) as [e He].
  exists e. unfold mutateItems. apply bind_Throw, He.
Qed.

Lemma can_push_dec s a xs : can_push s a xs ∨ ¬ can_push s a xs.
Proof.
  unfold can_push.
  destruct (decide (a ∈ inextensible s));
    destruct (Z.lt_ge_cases (Z.of_nat (length xs)) max_length);
    [right|right|left|right]; try tauto; intros [_ Hlt]; lia.
Qed.

Lemma State_extensible h i o l : l ∉ inextensible (State h i o).
Proof. apply not_elem_of_empty. Qed.

(** A new array can be pushed to when it is short. *)
Lemma can_push_new h i o (X : gset loc) l ys :
  Z.of_nat (length ys) < max_length →
  can_push (mkState h i o (X ∖ {[l]})) l ys.
Proof.
  intros Hlen. split; [|exact Hlen]. cbn [inextensible].
  rewrite elem_of_difference, elem_of_singleton. tauto.
Qed.

Lemma console_log_spec a xs s :
  heap s !! a = Some xs →
  console_log a s
  = Normal tt
      (mkState (heap s) (stdin s) (stdout s ++ [xs]) (inextensible s)).
Proof.
  intros Ha. unfold console_log.
  rewrite (bind_Normal _ _ _ _ _ (read_spec _ _ _ Ha)). reflexivity.
Qed.

Lemma plus_one_literal :
  plus_one <$> [int 1; int 2; int 3] = [int 2; int 3; int 4].
Proof. vm_compute. reflexivity. Qed.

(** [list_init] creates the literal, then the mapped array. *)
Lemma list_init_spec s :
  let a := fresh (dom (heap s)) in
  let h := <[a := [int 1; int 2; int 3]]> (heap s) in
  list_init s
  = Normal (fresh (dom h))
      (mkState (<[fresh (dom h) := [int 2; int 3; int 4]]> h)
         (stdin s) (stdout s)
         (inextensible s ∖ {[a]} ∖ {[fresh (dom h)]})).
Proof.
  intros a h. unfold list_init.
  rewrite (bind_Normal _ _ _ _ _ (alloc_spec _ s)).
  erewrite Array_map_spec by (cbn [heap]; apply lookup_insert_eq).
  rewrite plus_one_literal. reflexivity.
Qed.

(** The whole run: three arrays are created, two are logged. *)
Lemma main_spec s :
  let a := fresh (dom (heap s)) in
  let h1 := <[a := [int 1; int 2; int 3]]> (heap s) in
  let b := fresh (dom h1) in
  let h2 := <[b := [int 2; int 3; int 4]]> h1 in
  let c := fresh (dom h2) in
  main s
  = Normal tt
      (mkState (<[c := [int 1; int 2; int 3; Str "Hello world"]]> h2)
         (stdin s)
         (stdout s ++ [[int 2; int 3; int 4];
                       [int 1; int 2; int 3; Str "Hello world"]])
         (inextensible s ∖ {[a]} ∖ {[b]} ∖ {[c]})).
Proof.
  intros a h1 b h2 c. unfold main.
  rewrite (bind_Normal _ _ _ _ _ (list_init_spec s)).
  erewrite (bind_Normal (console_log _))
    by (apply console_log_spec; cbn [heap]; apply lookup_insert_eq).
  cbn [heap stdin stdout inextensible]. fold a h1 b h2.
  unfold numbers_init.
  rewrite (bind_Normal _ _ _ _ _ (alloc_spec _ _)).
  cbn [heap stdin stdout inextensible]. fold c.
  erewrite (bind_Normal (mutateItems _)).
  2:{ apply mutateItems_spec; [cbn [heap]; apply lookup_insert_eq|].
      apply can_push_new. vm_compute. reflexivity. }
  erewrite console_log_spec by (cbn [heap]; apply lookup_insert_eq).
  cbn [heap stdin stdout inextensible].
  rewrite insert_insert_eq, <- app_assoc. reflexivity.
Qed.

Lemma printed_Normal {A} (x : A) s :
  printed (Normal x s) = mapM repr (stdout s).
Proof. reflexivity. Qed.

Lemma repr_lines :
  mapM repr [[int 2; int 3; int 4];
             [int 1; int 2; int 3; Str "Hello world"]]
  = Some [line_B; line_C].
Proof. vm_compute. reflexivity. Qed.

End Steps.

(* ===================================================================== *)
(** ** The run as a whole *)
(* ===================================================================== *)

(** C1: a run, whatever input is waiting, ends normally with exit status 0
    and exactly two lines on standard output, first the derived sequence
    [[2, 3, 4]], then the mutated sequence [[1, 2, 3, "Hello world"]]. *)
Theorem main_prints_two_lines (w : world) :
  output (run w)
    = Some [[int 2; int 3; int 4]; [int 1; int 2; int 3; Str "Hello world"]]
  ∧ printed (run w) = Some [line_B; line_C]
  ∧ exit_status (run w) = 0.
Proof.
  unfold run. rewrite main_spec.
  split; [reflexivity|]. split; [|reflexivity].
  rewrite printed_Normal. exact repr_lines.
Qed.

(** C6: no statement of the program throws or faults: from every starting
    world the run completes normally, and so does each of its operations
    on the array it is given. *)
Theorem main_completes (w : world) :
  (∃ s', run w = Normal tt s')
  ∧ (∃ l s1, list_init (boot w) = Normal l s1
     ∧ ∃ s2, console_log l s1 = Normal tt s2
     ∧ ∃ n s3, numbers_init s2 = Normal n s3
     ∧ ∃ s4, mutateItems n s3 = Normal tt s4
     ∧ ∃ s5, console_log n s4 = Normal tt s5).
Proof.
  split.
  - unfold run. rewrite main_spec. eauto.
  - rewrite list_init_spec. do 2 eexists. split; [reflexivity|].
    erewrite console_log_spec by (cbn [heap]; apply lookup_insert_eq).
    eexists. split; [reflexivity|].
    unfold numbers_init. rewrite alloc_spec.
    do 2 eexists. split; [reflexivity|].
    erewrite mutateItems_spec;
      [|cbn [heap]; apply lookup_insert_eq
       |apply can_push_new; vm_compute; reflexivity].
    eexists. split; [reflexivity|].
    erewrite console_log_spec by (cbn [heap]; apply lookup_insert_eq).
    eexists. reflexivity.
Qed.

(** C10: the output of a run does not depend on the world it starts in:
    two runs, whatever arrays exist and whatever input is waiting, write
    the same lines and exit alike. *)
Theorem run_deterministic (w1 w2 : world) :
  output (run w1) = output (run w2)
  ∧ printed (run w1) = printed (run w2)
  ∧ exit_status (run w1) = exit_status (run w2).
Proof.
  unfold run. rewrite !main_spec.
  split; [reflexivity|]. split; [|reflexivity].
  rewrite !printed_Normal. reflexivity.
Qed.

(* ===================================================================== *)
(** ** The derived sequence *)
(* ===================================================================== *)

(** C2: in every state, [[1, 2, 3].map(x => x + 1)] is an array holding
    exactly the integers 2, 3 and 4. *)
Theorem list_is_2_3_4 (s : state) :
  ∃ l s' B,
    list_init s = Normal l s'
    ∧ heap s' !! l = Some B
    ∧ B = [int 2; int 3; int 4]
    ∧ int_of_Item <$> B = [Some 2; Some 3; Some 4].
Proof.
  rewrite list_init_spec. do 3 eexists. split; [reflexivity|].
  split; [cbn [heap]; apply lookup_insert_eq|].
  split; [reflexivity|]. vm_compute. reflexivity.
Qed.

(** C3, amended: when every element of [A] is a number denoting an integer
    from [-2^53] to [2^53 - 1], the array [A.map(x => x + 1)] has the
    length of [A] and its element at each index denotes the integer of [A]
    at that index plus one. *)
Theorem map_plus_one_safe (A : list Item) (zs : list Z) (s : state) (a : loc) :
  heap s !! a = Some A →
  Forall2 is_int A zs →
  Forall safe zs →
  ∃ b s' B,
    Array_map plus_one a s = Normal b s'
    ∧ heap s' !! b = Some B
    ∧ length B = length A
    ∧ ∀ i z, zs !! i = Some z → ∃ y, B !! i = Some y ∧ is_int y (z + 1).
Proof.
  intros Ha Hint Hsafe. rewrite (Array_map_spec _ _ _ _ Ha), alloc_spec.
  exists (fresh (dom (heap s))). eexists. exists (plus_one <$> A).
  split; [reflexivity|]. split; [cbn [heap]; apply lookup_insert_eq|].
  split; [apply length_fmap|].
  intros i z Hz.
  destruct (Forall2_lookup_r _ _ _ _ _ Hint Hz) as (x & Hx & Hxz).
  exists (plus_one x). split; [rewrite list_lookup_fmap, Hx; reflexivity|].
  destruct x as [n|]; [|contradiction]. destruct Hxz as [Hv Hn].
  apply add_one_denotes; [assumption..|].
  eapply Forall_lookup_1; eassumption.
Qed.

Lemma map_plus_one_safe_witness :
  heap (State {[1%positive := [int 1; int 2; int 3]]} [] []) !! 1%positive
    = Some [int 1; int 2; int 3]
  ∧ ∃ b s' B,
      Array_map plus_one 1%positive
        (State {[1%positive := [int 1; int 2; int 3]]} [] []) = Normal b s'
      ∧ heap s' !! b = Some B
      ∧ length B = length [int 1; int 2; int 3]
      ∧ ∀ i z, [1; 2; 3] !! i = Some z →
               ∃ y, B !! i = Some y ∧ is_int y (z + 1).
Proof.
  split; [reflexivity|].
  apply (map_plus_one_safe [int 1; int 2; int 3] [1; 2; 3]).
  - reflexivity.
  - repeat constructor.
  - unfold safe. repeat constructor; lia.
Defined.

(** C3 as stated fails on the one-element array [[2^53]]: its element is
    a number denoting the integer [2^53], and the mapped array holds that
    same number, which denotes [2^53] and not [2^53 + 1]. *)
Lemma map_plus_one_2p53 :
  Forall2 is_int [int (2 ^ 53)] [2 ^ 53]
  ∧ Array_map plus_one 1%positive
      (State {[1%positive := [int (2 ^ 53)]]} [] [])
    = Normal 2%positive
        (State (<[2%positive := [int (2 ^ 53)]]>
                  {[1%positive := [int (2 ^ 53)]]}) [] [])
  ∧ int_of_Item (int (2 ^ 53)) = Some (2 ^ 53)
  ∧ ¬ is_int (int (2 ^ 53)) (2 ^ 53 + 1).
Proof.
  split; [repeat constructor|].
  split; [vm_compute; reflexivity|].
  split; [vm_compute; reflexivity|].
  intros [_ H]. vm_compute in H. discriminate.
Qed.

(** C7: mapping creates a new array and leaves the source alone: after
    [[1, 2, 3].map(x => x + 1)] the literal still holds 1, 2, 3, and it
    still does when the program ends. *)
Theorem map_leaves_source (s : state) :
  ∃ a s0 b s1 s',
    alloc [int 1; int 2; int 3] s = Normal a s0
    ∧ Array_map plus_one a s0 = Normal b s1
    ∧ b ≠ a
    ∧ heap s1 !! a = Some [int 1; int 2; int 3]
    ∧ main s = Normal tt s'
    ∧ heap s' !! a = Some [int 1; int 2; int 3].
Proof.
  set (a := fresh (dom (heap s))).
  set (h1 := <[a := [int 1; int 2; int 3]]> (heap s)).
  set (b := fresh (dom h1)).
  set (h2 := <[b := [int 2; int 3; int 4]]> h1).
  set (c := fresh (dom h2)).
  assert (Ha1 : h1 !! a = Some [int 1; int 2; int 3])
    by apply lookup_insert_eq.
  assert (Hba : b ≠ a)
    by exact (fresh_ne (State h1 (stdin s) (stdout s)) a _ Ha1).
  assert (Ha2 : h2 !! a = Some [int 1; int 2; int 3])
    by (unfold h2; rewrite lookup_insert_ne by exact Hba; exact Ha1).
  assert (Hca : c ≠ a)
    by exact (fresh_ne (State h2 (stdin s) (stdout s)) a _ Ha2).
  exists a, (mkState h1 (stdin s) (stdout s) (inextensible s ∖ {[a]})), b,
    (mkState h2 (stdin s) (stdout s) (inextensible s ∖ {[a]} ∖ {[b]})).
  eexists. split; [reflexivity|].
  split.
  { rewrite (Array_map_spec _ _ _
               (mkState h1 (stdin s) (stdout s) (inextensible s ∖ {[a]}))
               Ha1).
    rewrite plus_one_literal. reflexivity. }
  split; [exact Hba|]. split; [exact Ha2|].
  split; [apply main_spec|].
  cbn [heap]. fold a h1 b h2 c.
  rewrite lookup_insert_ne by exact Hca. exact Ha2.
Qed.

(* ===================================================================== *)
(** ** The mutated sequence *)
(* ===================================================================== *)

(** C4: one call of [mutateItems] on [numbers = [1, 2, 3]] leaves
    [numbers] holding [[1, 2, 3, "Hello world"]]: four elements, the first
    three the integers 1, 2, 3 as before, the last the string; the array
    was an [Array<number>] before the call and is not one after it. *)
Theorem mutateItems_numbers (s : state) :
  ∃ numbers s0 s' C,
    numbers_init s = Normal numbers s0
    ∧ heap s0 !! numbers = Some [int 1; int 2; int 3]
    ∧ is_number_array [int 1; int 2; int 3] = true
    ∧ mutateItems numbers s0 = Normal tt s'
    ∧ heap s' !! numbers = Some C
    ∧ C = [int 1; int 2; int 3; Str "Hello world"]
    ∧ length C = 4%nat
    ∧ int_of_Item <$> take 3 C = [Some 1; Some 2; Some 3]
    ∧ last C = Some (Str "Hello world")
    ∧ is_number_array C = false.
Proof.
  unfold numbers_init. rewrite alloc_spec.
  do 3 eexists. exists [int 1; int 2; int 3; Str "Hello world"].
  split; [reflexivity|].
  split; [cbn [heap]; apply lookup_insert_eq|].
  split; [reflexivity|].
  split.
  { apply mutateItems_spec; [cbn [heap]; apply lookup_insert_eq|].
    apply can_push_new. vm_compute. reflexivity. }
  split; [cbn [heap]; apply lookup_insert_eq|].
  split; [reflexivity|]. split; [reflexivity|].
  split; [vm_compute; reflexivity|]. split; reflexivity.
Qed.

(** C5: [mutateItems] works on the caller's array itself.  It creates no
    array, changes no other array and logs nothing.  Whenever [push] goes
    through (the array is extensible and below the greatest length, as
    [numbers] is) it returns nothing, and after the call the reference the
    caller passed reads the old contents followed by "Hello world";
    otherwise it throws and that reference reads the old contents. *)
Theorem mutateItems_in_place (s : state) (items : loc) (xs : list Item) :
  heap s !! items = Some xs →
  ∃ s',
    final_state (mutateItems items s) = Some s'
    ∧ (can_push s items xs →
         mutateItems items s = Normal tt s'
         ∧ read items s' = Normal (xs ++ [Str "Hello world"]) s')
    ∧ (¬ can_push s items xs →
         (∃ e, mutateItems items s = Throw e s')
         ∧ read items s' = Normal xs s')
    ∧ dom (heap s') = dom (heap s)
    ∧ (∀ l, l ≠ items → heap s' !! l = heap s !! l)
    ∧ stdout s' = stdout s.
Proof.
  intros Hitems. destruct (can_push_dec s items xs) as [Hpush|Hno].
  - rewrite (mutateItems_spec _ _ _ Hitems Hpush).
    eexists. split; [reflexivity|].
    split.
    { intros _. split; [reflexivity|].
      apply read_spec. cbn [heap]. apply lookup_insert_eq. }
    split; [intros Hno; contradiction|].
    split; [cbn [heap]; apply dom_insert_lookup_L; eauto|].
    split; [|reflexivity].
    intros l Hl. cbn [heap]. apply lookup_insert_ne. congruence.
  - destruct (mutateItems_throws _ _ _ Hitems Hno) as [e He]. rewrite He.
    exists s. split; [reflexivity|].
    split; [intros Hpush; contradiction|].
    split; [intros _; split; [eauto|apply read_spec, Hitems]|].
    repeat split.
Qed.

Lemma mutateItems_in_place_witness :
  heap (State {[1%positive := [int 1; int 2; int 3]]} [] []) !! 1%positive
    = Some [int 1; int 2; int 3]
  ∧ ∃ s',
      mutateItems 1%positive
        (State {[1%positive := [int 1; int 2; int 3]]} [] []) = Normal tt s'
      ∧ read 1%positive s'
        = Normal ([int 1; int 2; int 3] ++ [Str "Hello world"]) s'
      ∧ dom (heap s')
        = dom (heap (State {[1%positive := [int 1; int 2; int 3]]} [] []))
      ∧ (∀ l, l ≠ 1%positive →
           heap s' !! l
           = heap (State {[1%positive := [int 1; int 2; int 3]]} [] []) !! l)
      ∧ stdout s'
        = stdout (State {[1%positive := [int 1; int 2; int 3]]} [] []).
Proof.
  assert (Hlive :
    heap (State {[1%positive := [int 1; int 2; int 3]]} [] []) !! 1%positive
    = Some [int 1; int 2; int 3]) by reflexivity.
  split; [exact Hlive|].
  destruct (mutateItems_in_place
              (State {[1%positive := [int 1; int 2; int 3]]} [] []) 1%positive
              [int 1; int 2; int 3] Hlive)
    as (s' & _ & Hpush & _ & Hdom & Hframe & Hout).
  destruct Hpush as [Hret Hread].
  { split; [apply State_extensible|vm_compute; reflexivity]. }
  exists s'. repeat split; assumption.
Defined.




(** C9: on any array, [mutateItems] keeps every element the array had: at
    each index below the old length the element is the one that was
    there.  This holds when the call returns, which it does whenever
    [push] goes through, and also when it throws. *)
Theorem mutateItems_keeps (s : state) (items : loc) (xs : list Item) :
  heap s !! items = Some xs →
  ∃ s' ys,
    final_state (mutateItems items s) = Some s'
    ∧ (can_push s items xs → mutateItems items s = Normal tt s')
    ∧ heap s' !! items = Some ys
    ∧ take (length xs) ys = xs
    ∧ ∀ i, (i < length xs)%nat → ys !! i = xs !! i.
Proof.
  intros Hitems. destruct (can_push_dec s items xs) as [Hpush|Hno].
  - rewrite (mutateItems_spec _ _ _ Hitems Hpush).
    eexists. exists (xs ++ [Str "Hello world"]). split; [reflexivity|].
    split; [reflexivity|].
    split; [cbn [heap]; apply lookup_insert_eq|].
    split; [apply take_app_length|].
    intros i Hi. apply lookup_app_l, Hi.
  - destruct (mutateItems_throws _ _ _ Hitems Hno) as [e He]. rewrite He.
    exists s, xs. split; [reflexivity|].
    split; [intros Hpush; contradiction|].
    split; [exact Hitems|]. split; [apply firstn_all|reflexivity].
Qed.

Lemma mutateItems_keeps_witness :
  heap (State {[1%positive := [Str "a"; int 7]]} [] []) !! 1%positive
    = Some [Str "a"; int 7]
  ∧ ∃ s' ys,
      mutateItems 1%positive (State {[1%positive := [Str "a"; int 7]]} [] [])
        = Normal tt s'
      ∧ heap s' !! 1%positive = Some ys
      ∧ take (length [Str "a"; int 7]) ys = [Str "a"; int 7]
      ∧ ∀ i, (i < length [Str "a"; int 7])%nat →
             ys !! i = [Str "a"; int 7] !! i.
Proof.
  assert (Hlive :
    heap (State {[1%positive := [Str "a"; int 7]]} [] []) !! 1%positive
    = Some [Str "a"; int 7]) by reflexivity.
  split; [exact Hlive|].
  destruct (mutateItems_keeps
              (State {[1%positive := [Str "a"; int 7]]} [] []) 1%positive
              [Str "a"; int 7] Hlive)
    as (s' & ys & _ & Hpush & Hys & Htake & Hidx).
  exists s', ys. split; [|repeat split; assumption].
  apply Hpush. split; [apply State_extensible|vm_compute; reflexivity].
Defined.

(* ===================================================================== *)
(** ** Outside the 53-bit range [+ 1] is not the successor *)
(* ===================================================================== *)

(** The exponent never goes below the one [fexp] asks for. *)
Lemma shr_fexp_exponent m e l :
  e < fexp prec emax (Zdigits2 m + e) →
  snd (shr_fexp prec emax m e l) = fexp prec emax (Zdigits2 m + e).
Proof.
  intros He. unfold shr_fexp, shr.
  destruct (fexp prec emax (Zdigits2 m + e) - e) as [|n|n] eqn:Hn; [lia| |lia].
  cbn [snd]. lia.
Qed.

Lemma shr_fexp_exponent_le m e l : e <= snd (shr_fexp prec emax m e l).
Proof.
  unfold shr_fexp, shr.
  destruct (fexp prec emax (Zdigits2 m + e) - e) as [|n|n]; cbn [snd]; lia.
Qed.

Lemma binary_round_aux_exponent s m e l s' m' e' :
  e < fexp prec emax (Zdigits2 m + e) →
  binary_round_aux prec emax s m e l = S754_finite s' m' e' →
  fexp prec emax (Zdigits2 m + e) <= e'.
Proof.
  intros He. unfold binary_round_aux.
  pose proof (shr_fexp_exponent m e l He) as H1.
  destruct (shr_fexp prec emax m e l) as [mrs1 e1]. cbn [snd] in H1.
  match goal with |- context [shr_fexp prec emax ?M e1 loc_Exact] =>
    pose proof (shr_fexp_exponent_le M e1 loc_Exact) as H2;
    destruct (shr_fexp prec emax M e1 loc_Exact) as [mrs2 e2] end.
  cbn [snd] in H2.
  destruct (shr_m mrs2); try discriminate.
  destruct (e2 <=? emax - prec); [|discriminate].
  intros [= _ _ <-]. lia.
Qed.

Lemma digits_ge p n : 0 <= n → 2 ^ n <= Z.pos p → n < Z.pos (digits2_pos p).
Proof.
  intros Hn Hp. pose proof (size_bounds p) as [_ Hlt].
  destruct (Z.lt_ge_cases n (Z.pos (digits2_pos p))) as [|Hge]; [assumption|].
  assert (2 ^ Z.pos (digits2_pos p) <= 2 ^ n) by (apply Z.pow_le_mono_r; lia).
  lia.
Qed.

(** A number that denotes an integer of magnitude [2^53] or more has a
    positive exponent. *)
Lemma large_exponent m e v :
  bounded prec emax m e = true → magnitude m e = Some v → 2 ^ 53 <= v →
  1 <= e ∧ v = Z.pos m * 2 ^ e.
Proof.
  unfold bounded, canonical_mantissa. intros Hb Hv Hlarge.
  apply andb_true_iff in Hb as [Hc _]. apply Z.eqb_eq in Hc.
  assert (Hd : Z.pos (digits2_pos m) <= 53)
    by (unfold fexp, emin, prec, emax in Hc; lia).
  assert (Hm : Z.pos m < 2 ^ 53).
  { pose proof (size_bounds m) as [_ Hlt].
    assert (2 ^ Z.pos (digits2_pos m) <= 2 ^ 53)
      by (apply Z.pow_le_mono_r; lia).
    lia. }
  destruct (Z.lt_trichotomy e 0) as [Hneg|[->|Hpos]].
  - exfalso. destruct (magnitude_shl m e v Hv Hneg) as (w & -> & ->).
    rewrite Zpos_shl in Hm.
    assert (0 < 2 ^ Z.of_nat (Z.to_nat (- e)))
      by (apply Z.pow_pos_nonneg; lia).
    nia.
  - exfalso. unfold magnitude in Hv. simpl in Hv. injection Hv as <-. lia.
  - split; [lia|]. unfold magnitude in Hv.
    destruct (Z.leb_spec 0 e); [|lia]. congruence.
Qed.

Lemma to_Z_even s m e v :
  1 <= e → to_Z (S754_finite s m e) = Some v → ∃ q, v = 2 * q.
Proof.
  intros He. cbn [to_Z]. unfold magnitude.
  destruct (Z.leb_spec 0 e); [|lia]. intros [= <-].
  replace e with (Z.succ (e - 1)) by lia. rewrite Z.pow_succ_r by lia.
  destruct s; cbn [cond_Zopp].
  - exists (- (Z.pos m * 2 ^ (e - 1))). lia.
  - exists (Z.pos m * 2 ^ (e - 1)). lia.
Qed.

(** Rounding a mantissa of more than 105 bits at exponent [-52] never gives
    an odd integer. *)
Lemma binary_round_large s p v :
  2 ^ 105 <= Z.pos p →
  to_Z (binary_round prec emax s p (- 52)) = Some v → ∃ q, v = 2 * q.
Proof.
  intros Hp. pose proof (digits_ge p 105 ltac:(lia) Hp) as Hd.
  assert (Hfexp : 1 <= fexp prec emax (Z.pos (digits2_pos p) + - 52))
    by (unfold fexp, emin, prec, emax; lia).
  unfold binary_round, shl_align.
  destruct (fexp prec emax (Z.pos (digits2_pos p) + - 52) - - 52)
    as [|n|n] eqn:Hn; [lia| |lia].
  destruct (binary_round_aux prec emax s (Z.pos p) (- 52) loc_Exact)
    as [s'|s'| |s' m' e'] eqn:Hr; cbn [to_Z]; try discriminate.
  - intros [= <-]. exists 0. reflexivity.
  - apply to_Z_even.
    apply binary_round_aux_exponent in Hr; simpl Zdigits2 in *; lia.
Qed.

Lemma add_one_large s m e :
  1 <= e → 2 ^ 53 <= Z.pos m * 2 ^ e →
  (s = true → 2 ^ 53 < Z.pos m * 2 ^ e) →
  ∀ v, to_Z (add (S754_finite s m e) (of_Z 1)) = Some v → ∃ q, v = 2 * q.
Proof.
  intros He Hlarge Hneg v.
  change (of_Z 1) with (S754_finite false (shl 52 1) (- 52)).
  unfold add, SFadd. rewrite Z.min_r by lia.
  change (fst (shl_align (shl 52 1) (- 52) (- 52))) with (shl 52 1).
  assert (Halign : fst (shl_align m e (- 52)) = shl (Z.to_nat (e + 52)) m).
  { unfold shl_align. destruct (- 52 - e) as [|n|n] eqn:Hn; [lia|lia|].
    cbn [fst]. rewrite Pos_iter_shl. f_equal. lia. }
  rewrite Halign.
  assert (Hsum :
    cond_Zopp s (Z.pos (shl (Z.to_nat (e + 52)) m)) + cond_Zopp false (Z.pos (shl 52 1))
    = (cond_Zopp s (Z.pos m * 2 ^ e) + 1) * 2 ^ 52).
  { rewrite !Zpos_shl, Z2Nat.id by lia. change (Z.of_nat 52) with 52.
    rewrite Z.pow_add_r by lia. destruct s; cbn [cond_Zopp]; lia. }
  rewrite Hsum. clear Hsum Halign.
  destruct ((cond_Zopp s (Z.pos m * 2 ^ e) + 1) * 2 ^ 52) as [|p|p] eqn:HS;
    cbn [binary_normalize].
  - intros [= <-]. exists 0. reflexivity.
  - apply binary_round_large. destruct s; cbn [cond_Zopp] in HS; lia.
  - apply binary_round_large. destruct s; cbn [cond_Zopp] in HS.
    + specialize (Hneg eq_refl). lia.
    + lia.
Qed.

(** Outside [-2^53 <= z < 2^53] the result of [+ 1] never denotes the
    successor. *)
Lemma add_one_unsafe x z :
  valid x = true → to_Z x = Some z → ¬ safe z →
  to_Z (add x (of_Z 1)) ≠ Some (z + 1).
Proof.
  unfold safe. intros Hx Hz Hs Hres.
  destruct x as [s|s| |s m e]; try discriminate.
  { injection Hz as <-. lia. }
  cbn [to_Z] in Hz. unfold valid, valid_binary in Hx.
  destruct (magnitude m e) as [v|] eqn:Hv; [|discriminate].
  injection Hz as <-.
  pose proof (magnitude_pos m e v Hv) as Hpos.
  assert (Hlarge : 2 ^ 53 <= v) by (destruct s; cbn [cond_Zopp] in Hs; lia).
  destruct (large_exponent m e v Hx Hv Hlarge) as [He ->].
  destruct (add_one_large s m e He Hlarge) with (v := cond_Zopp s (Z.pos m * 2 ^ e) + 1)
    as [q Hq]; [|exact Hres|].
  { intros ->. cbn [cond_Zopp] in Hs. lia. }
  destruct (to_Z_even s m e (cond_Zopp s (Z.pos m * 2 ^ e)) He) as [q' Hq'].
  { cbn [to_Z]. unfold magnitude. destruct (Z.leb_spec 0 e); [reflexivity|lia]. }
  lia.
Qed.

(* ===================================================================== *)
(** ** Rounding never produces NaN *)
(* ===================================================================== *)

Lemma shr_1_nonneg r : 0 <= shr_m r → 0 <= shr_m (shr_1 r).
Proof.
  destruct r as [m r s]. cbn [shr_m]. intros Hm.
  destruct m as [|[p|p|]|p]; cbn; lia.
Qed.

Lemma shr_fexp_nonneg m e l : 0 <= m → 0 <= shr_m (fst (shr_fexp prec emax m e l)).
Proof.
  intros Hm. unfold shr_fexp, shr.
  assert (Hr : 0 <= shr_m (shr_record_of_loc m l))
    by (destruct l as [|[]]; exact Hm).
  destruct (fexp prec emax (Zdigits2 m + e) - e) as [|n|n]; cbn [fst];
    [exact Hr| |exact Hr].
  rewrite iter_pos_nat.
  induction (Pos.to_nat n) as [|k IH]; [exact Hr|].
  rewrite Nat.iter_succ. apply shr_1_nonneg, IH.
Qed.

Lemma round_nearest_even_nonneg m l : 0 <= m → 0 <= round_nearest_even m l.
Proof.
  intros Hm. unfold round_nearest_even.
  destruct l as [|[]]; [lia| |lia|lia]. destruct (Z.even m); lia.
Qed.

Lemma binary_round_aux_not_nan s m e l :
  0 <= m → binary_round_aux prec emax s m e l ≠ S754_nan.
Proof.
  intros Hm. unfold binary_round_aux.
  pose proof (shr_fexp_nonneg m e l Hm) as H1.
  destruct (shr_fexp prec emax m e l) as [mrs1 e1]. cbn [fst] in H1.
  pose proof (shr_fexp_nonneg _ e1 loc_Exact
    (round_nearest_even_nonneg _ (loc_of_shr_record mrs1) H1)) as H2.
  destruct (shr_fexp prec emax _ e1 loc_Exact) as [mrs2 e2]. cbn [fst] in H2.
  destruct (shr_m mrs2); [discriminate| |lia].
  destruct (e2 <=? emax - prec); discriminate.
Qed.

Lemma binary_normalize_not_nan m e sz :
  binary_normalize prec emax m e sz ≠ S754_nan.
Proof.
  destruct m as [|p|p]; cbn [binary_normalize]; [discriminate| |];
    unfold binary_round;
    destruct (shl_align p e _) as [mz ez];
    apply binary_round_aux_not_nan; lia.
Qed.

Lemma add_one_nan x : add x (of_Z 1) = S754_nan → x = S754_nan.
Proof.
  change (of_Z 1) with (S754_finite false (shl 52 1) (- 52)).
  destruct x as [s|s| |s m e]; try discriminate; [reflexivity|].
  unfold add, SFadd. intros H. exfalso.
  exact (binary_normalize_not_nan _ _ _ H).
Qed.

(* ===================================================================== *)
(** ** Further properties of the operations *)
(* ===================================================================== *)

Lemma is_number_plus_one x : is_number (plus_one x) = is_number x.
Proof. destruct x; reflexivity. Qed.

Lemma is_number_array_plus_one xs :
  is_number_array (plus_one <$> xs) = is_number_array xs.
Proof.
  unfold is_number_array. induction xs as [|x xs IH]; [reflexivity|].
  cbn [fmap list_fmap forallb]. rewrite is_number_plus_one. f_equal. exact IH.
Qed.

Lemma is_number_array_snoc_Str xs t : is_number_array (xs ++ [Str t]) = false.
Proof.
  unfold is_number_array. rewrite forallb_app. cbn. apply andb_false_r.
Qed.


(** X1: for an element that denotes the integer [z], [x => x + 1] returns
    an element denoting [z + 1] exactly when [-2^53 <= z < 2^53]. *)
Theorem plus_one_successor_iff_safe (x : Item) (z : Z) :
  is_int x z → (is_int (plus_one x) (z + 1) ↔ safe z).
Proof.
  destruct x as [n|]; [|contradiction]. intros [Hv Hz]. split.
  - intros [_ Hres]. destruct (decide (safe z)) as [|Hs]; [assumption|].
    exfalso. exact (add_one_unsafe n z Hv Hz Hs Hres).
  - intros Hs. apply add_one_denotes; assumption.
Qed.

Lemma plus_one_successor_iff_safe_witness :
  is_int (int 5) 5 ∧ (is_int (plus_one (int 5)) (5 + 1) ↔ safe 5).
Proof.
  split; [split; reflexivity|].
  apply (plus_one_successor_iff_safe (int 5) 5). split; reflexivity.
Defined.

(** X2: [x => x + 1] returns NaN exactly on NaN: no other number and no
    string is turned into NaN. *)
Theorem plus_one_nan_iff (x : Item) :
  plus_one x = Num S754_nan ↔ x = Num S754_nan.
Proof.
  split.
  - destruct x as [n|t]; [|discriminate]. cbn [plus_one].
    intros [= H]. f_equal. apply add_one_nan, H.
  - intros ->. reflexivity.
Qed.

(** X3: an integer literal of magnitude at most [2^53] is a number that
    denotes exactly that integer, and it is the only number that does
    (apart from the two zeros). *)
Theorem literal_exact (z : Z) :
  - 2 ^ 53 <= z <= 2 ^ 53 →
  is_int (int z) z
  ∧ ∀ n, valid n = true → to_Z n = Some z → z ≠ 0 → Num n = int z.
Proof.
  intros Hz. split; [split; [apply valid_of_Z|apply to_Z_of_Z]; exact Hz|].
  intros n Hv Hn Hnz. unfold int. f_equal.
  apply number_unique; assumption.
Qed.

Lemma literal_exact_witness :
  - 2 ^ 53 <= 3 <= 2 ^ 53
  ∧ is_int (int 3) 3
  ∧ ∀ n, valid n = true → to_Z n = Some 3 → 3 ≠ 0 → Num n = int 3.
Proof.
  split; [lia|]. apply (literal_exact 3). lia.
Defined.

(** X4: on any array, also the empty one, and with any callback that is a
    pure function of the element (as [x => x + 1] is), [map] returns an
    array that did not exist before, extensible, of the same length,
    holding the callback of each element index by index; every array that
    existed keeps its contents and nothing is logged. *)
Theorem Array_map_new_array (f : Item → Item) (a : loc) (xs : list Item) (s : state) :
  heap s !! a = Some xs →
  ∃ b s' B,
    Array_map f a s = Normal b s'
    ∧ heap s !! b = None
    ∧ heap s' !! b = Some B
    ∧ (b ∉ inextensible s')
    ∧ length B = length xs
    ∧ (∀ i, B !! i = f <$> xs !! i)
    ∧ (∀ l ys, heap s !! l = Some ys → heap s' !! l = Some ys)
    ∧ stdout s' = stdout s.
Proof.
  intros Ha. rewrite (Array_map_spec _ _ _ _ Ha), alloc_spec.
  do 2 eexists. exists (f <$> xs). split; [reflexivity|].
  split; [apply fresh_not_live|].
  split; [cbn [heap]; apply lookup_insert_eq|].
  split.
  { cbn [inextensible]. rewrite elem_of_difference, elem_of_singleton. tauto. }
  split; [apply length_fmap|].
  split; [intros i; apply list_lookup_fmap|].
  split; [|reflexivity].
  intros l ys Hl. cbn [heap]. rewrite lookup_insert_ne; [exact Hl|].
  exact (fresh_ne s l ys Hl).
Qed.

Lemma Array_map_new_array_witness :
  heap (State {[1%positive := [int 1; Str "a"]]} [] []) !! 1%positive
    = Some [int 1; Str "a"]
  ∧ ∃ b s' B,
      Array_map plus_one 1%positive
        (State {[1%positive := [int 1; Str "a"]]} [] []) = Normal b s'
      ∧ heap (State {[1%positive := [int 1; Str "a"]]} [] []) !! b = None
      ∧ heap s' !! b = Some B
      ∧ (b ∉ inextensible s')
      ∧ length B = length [int 1; Str "a"]
      ∧ (∀ i, B !! i = plus_one <$> [int 1; Str "a"] !! i)
      ∧ (∀ l ys,
           heap (State {[1%positive := [int 1; Str "a"]]} [] []) !! l = Some ys →
           heap s' !! l = Some ys)
      ∧ stdout s' = stdout (State {[1%positive := [int 1; Str "a"]]} [] []).
Proof.
  split; [reflexivity|].
  apply (Array_map_new_array plus_one 1%positive [int 1; Str "a"]
           (State {[1%positive := [int 1; Str "a"]]} [] [])).
  reflexivity.
Defined.

(** X5: [x => x + 1] sends numbers to numbers and strings to strings, so
    the mapped array is an [Array<number>] exactly when the source is. *)
Theorem map_plus_one_keeps_numbers (a : loc) (xs : list Item) (s : state) :
  heap s !! a = Some xs →
  ∃ b s' B,
    Array_map plus_one a s = Normal b s'
    ∧ heap s' !! b = Some B
    ∧ is_number_array B = is_number_array xs.
Proof.
  intros Ha. rewrite (Array_map_spec _ _ _ _ Ha), alloc_spec.
  do 2 eexists. exists (plus_one <$> xs). split; [reflexivity|].
  split; [cbn [heap]; apply lookup_insert_eq|].
  apply is_number_array_plus_one.
Qed.

Lemma map_plus_one_keeps_numbers_witness :
  heap (State {[1%positive := [Num S754_nan; int 2]]} [] []) !! 1%positive
    = Some [Num S754_nan; int 2]
  ∧ ∃ b s' B,
      Array_map plus_one 1%positive
        (State {[1%positive := [Num S754_nan; int 2]]} [] []) = Normal b s'
      ∧ heap s' !! b = Some B
      ∧ is_number_array B = is_number_array [Num S754_nan; int 2].
Proof.
  split; [reflexivity|].
  apply (map_plus_one_keeps_numbers 1%positive [Num S754_nan; int 2]
           (State {[1%positive := [Num S754_nan; int 2]]} [] [])).
  reflexivity.
Defined.





(** X8: when [push] goes through, mapping [x => x + 1] over the array
    that went through [mutateItems] gives the mapped old elements followed
    by the string "Hello world1": the result is not an [Array<number>],
    and the mutated array itself still ends with "Hello world".  When
    [push] cannot go through, [mutateItems] throws and nothing is
    mapped. *)
Theorem mutate_then_map (items : loc) (xs : list Item) (s : state) :
  heap s !! items = Some xs →
  (can_push s items xs →
     ∃ b s' B,
       (mutateItems items;; Array_map plus_one items) s = Normal b s'
       ∧ heap s' !! b = Some B
       ∧ B = (plus_one <$> xs) ++ [Str "Hello world1"]
       ∧ is_number_array B = false
       ∧ heap s' !! items = Some (xs ++ [Str "Hello world"]))
  ∧ (¬ can_push s items xs →
       ∃ e, (mutateItems items;; Array_map plus_one items) s = Throw e s).
Proof.
  intros Hitems. split.
  - intros Hpush.
    rewrite (bind_Normal _ _ _ _ _ (mutateItems_spec _ _ _ Hitems Hpush)).
    erewrite Array_map_spec by (cbn [heap]; apply lookup_insert_eq).
    rewrite alloc_spec. cbn [heap stdin stdout inextensible].
    do 3 eexists. split; [reflexivity|].
    split; [cbn [heap]; apply lookup_insert_eq|].
    split; [rewrite fmap_app; reflexivity|].
    split; [rewrite fmap_app; apply is_number_array_snoc_Str|].
    cbn [heap]. rewrite lookup_insert_ne; [apply lookup_insert_eq|].
    pose proof (fresh_ne
      (mkState (<[items := xs ++ [Str "Hello world"]]> (heap s))
         (stdin s) (stdout s) (inextensible s))
      items (xs ++ [Str "Hello world"])) as Hne.
    cbn [heap] in Hne. apply Hne, lookup_insert_eq.
  - intros Hno. destruct (mutateItems_throws _ _ _ Hitems Hno) as [e He].
    exists e. apply bind_Throw, He.
Qed.

Lemma mutate_then_map_witness :
  heap (State {[1%positive := [int 1]]} [] []) !! 1%positive = Some [int 1]
  ∧ ∃ b s' B,
      (mutateItems 1%positive;; Array_map plus_one 1%positive)
        (State {[1%positive := [int 1]]} [] []) = Normal b s'
      ∧ heap s' !! b = Some B
      ∧ B = (plus_one <$> [int 1]) ++ [Str "Hello world1"]
      ∧ is_number_array B = false
      ∧ heap s' !! 1%positive = Some ([int 1] ++ [Str "Hello world"]).
Proof.
  assert (Hlive :
    heap (State {[1%positive := [int 1]]} [] []) !! 1%positive
    = Some [int 1]) by reflexivity.
  split; [exact Hlive|].
  apply (mutate_then_map 1%positive [int 1]
           (State {[1%positive := [int 1]]} [] []) Hlive).
  split; [apply State_extensible|vm_compute; reflexivity].
Defined.

(** X9: from any state the program completes, keeps every array that
    existed as it was, creates exactly three arrays, reads no input, and
    appends its two entries after whatever the console already held. *)
Theorem main_frame (s : state) :
  ∃ s',
    main s = Normal tt s'
    ∧ (∀ l xs, heap s !! l = Some xs → heap s' !! l = Some xs)
    ∧ size (heap s') = (size (heap s) + 3)%nat
    ∧ stdin s' = stdin s
    ∧ stdout s'
      = stdout s ++ [[int 2; int 3; int 4];
                     [int 1; int 2; int 3; Str "Hello world"]].
Proof.
  rewrite main_spec. eexists. split; [reflexivity|].
  set (a := fresh (dom (heap s))).
  set (h1 := <[a := [int 1; int 2; int 3]]> (heap s)).
  set (b := fresh (dom h1)).
  set (h2 := <[b := [int 2; int 3; int 4]]> h1).
  set (c := fresh (dom h2)).
  assert (Ha : heap s !! a = None) by apply fresh_not_live.
  assert (Hb : h1 !! b = None)
    by exact (fresh_not_live (State h1 (stdin s) (stdout s))).
  assert (Hc : h2 !! c = None)
    by exact (fresh_not_live (State h2 (stdin s) (stdout s))).
  cbn [heap stdin stdout]. split; [|split; [|split; reflexivity]].
  - intros l xs Hl.
    assert (l ≠ a) by congruence.
    assert (H1 : h1 !! l = Some xs)
      by (unfold h1; rewrite lookup_insert_ne by congruence; exact Hl).
    assert (l ≠ b) by congruence.
    assert (H2 : h2 !! l = Some xs)
      by (unfold h2; rewrite lookup_insert_ne by congruence; exact H1).
    assert (l ≠ c) by congruence.
    rewrite lookup_insert_ne by congruence. exact H2.
  - rewrite map_size_insert_None by exact Hc. unfold h2.
    rewrite map_size_insert_None by exact Hb. unfold h1.
    rewrite map_size_insert_None by exact Ha. lia.
Qed.

(** X11: the console receives the contents at the time of the call:
    logging before [mutateItems] records the old contents; logging after
    it records them followed by "Hello world" when [push] goes through,
    and is not reached when it throws; the store ends the same in both
    orders. *)
Theorem log_order_matters (a : loc) (xs : list Item) (s : state) :
  heap s !! a = Some xs →
  output ((console_log a;; mutateItems a) s) = Some (stdout s ++ [xs])
  ∧ (can_push s a xs →
       output ((mutateItems a;; console_log a) s)
       = Some (stdout s ++ [xs ++ [Str "Hello world"]]))
  ∧ (¬ can_push s a xs →
       output ((mutateItems a;; console_log a) s) = Some (stdout s))
  ∧ heap <$> final_state ((console_log a;; mutateItems a) s)
    = heap <$> final_state ((mutateItems a;; console_log a) s).
Proof.
  intros Ha.
  rewrite (bind_Normal _ _ _ _ _ (console_log_spec _ _ _ Ha)).
  destruct (can_push_dec s a xs) as [Hpush|Hno].
  - rewrite (bind_Normal _ _ _ _ _ (mutateItems_spec _ _ _ Ha Hpush)).
    erewrite mutateItems_spec; [|exact Ha|exact Hpush].
    erewrite console_log_spec by (cbn [heap]; apply lookup_insert_eq).
    split; [reflexivity|]. split; [reflexivity|].
    split; [intros Hno; contradiction|reflexivity].
  - destruct (mutateItems_throws _ _ _ Ha Hno) as [e He].
    rewrite (bind_Throw _ _ _ _ _ He).
    destruct (mutateItems_throws a xs
                (mkState (heap s) (stdin s) (stdout s ++ [xs])
                   (inextensible s)) Ha Hno) as [e' He'].
    rewrite He'.
    split; [reflexivity|]. split; [intros Hpush; contradiction|].
    split; reflexivity.
Qed.

Lemma log_order_matters_witness :
  heap (State {[1%positive := [int 1]]} [] []) !! 1%positive = Some [int 1]
  ∧ output ((console_log 1%positive;; mutateItems 1%positive)
              (State {[1%positive := [int 1]]} [] []))
    = Some (stdout (State {[1%positive := [int 1]]} [] []) ++ [[int 1]])
  ∧ output ((mutateItems 1%positive;; console_log 1%positive)
              (State {[1%positive := [int 1]]} [] []))
    = Some (stdout (State {[1%positive := [int 1]]} [] [])
            ++ [[int 1] ++ [Str "Hello world"]])
  ∧ heap <$> final_state ((console_log 1%positive;; mutateItems 1%positive)
                            (State {[1%positive := [int 1]]} [] []))
    = heap <$> final_state ((mutateItems 1%positive;; console_log 1%positive)
                              (State {[1%positive := [int 1]]} [] [])).
Proof.
  assert (Hlive :
    heap (State {[1%positive := [int 1]]} [] []) !! 1%positive
    = Some [int 1]) by reflexivity.
  split; [exact Hlive|].
  destruct (log_order_matters 1%positive [int 1]
              (State {[1%positive := [int 1]]} [] []) Hlive)
    as (Hbefore & Hafter & _ & Hstore).
  split; [exact Hbefore|]. split; [|exact Hstore].
  apply Hafter. split; [apply State_extensible|vm_compute; reflexivity].
Defined.
